(** * jsonpp: the JSON value model of [jsonpp.hpp] and its text serializer

    The header defines a small class hierarchy ([JSONValue] and its
    subclasses) whose containers hold raw [JSONValue*] pointers.  The
    development below embeds it shallowly:

    - [std::string] is a [string] (a sequence of 8-bit [ascii] units);
    - a [JSONValue*] is an optional location, objects live in a store
      ([gmap loc JSONValue]) and [new] picks a location that is not in use;
    - [std::vector<JSONValue*>] is a list of pointers;
    - [std::map<JSONString, JSONValue*>] is an association list kept in
      key order; the source declares no comparison for [JSONString], so the
      members that compare keys take the comparison as a parameter;
    - a call either returns, throws, runs into undefined behaviour or
      (for the recursive calls, which are bounded by fuel) runs out of fuel. *)

From Stdlib Require Import ZArith Ascii String List Lia.
From stdpp Require Import gmap strings list.

Local Open Scope stdpp_scope.

(** ** Strings and [size_t] *)

Module StdString.

(** [size_t] is a 64-bit unsigned integer. *)
Definition size_t_modulus : N := (2 ^ 64)%N.

Definition size (s : string) : N := N.of_nat (String.length s).

(** Unsigned subtraction on [size_t].  A [std::string] never holds more
    than [max_size() < 2^64] units, so both operands are in range and the
    only wrap-around is the one below zero. *)
Definition size_t_sub (a b : N) : N :=
  (if a <? b then a + size_t_modulus - b else a - b)%N.

(** The first [n] units of [s]. *)
Fixpoint prefix_of (n : nat) (s : string) : string :=
  match n, s with
  | S n', String c s' => String c (prefix_of n' s')
  | _, _ => EmptyString
  end.

(** [s.erase(index)]: drops everything from [index] on; an index beyond
    the size makes [erase] throw [std::out_of_range] ([None] here). *)
Definition erase (s : string) (index : N) : option string :=
  if (size s <? index)%N then None else Some (prefix_of (N.to_nat index) s).

(** What the spec calls "the last two characters trimmed". *)
Definition drop_last2 (s : string) : string :=
  prefix_of (String.length s - 2) s.

End StdString.

(** ** [escape_str] *)

Definition NUL : ascii := "000"%char.

(** [char ca[4] = {}]: four zeroed units. *)
Definition ca_zero : list ascii := [NUL; NUL; NUL; NUL].

(** The [switch] of [escape_str]: the contents of [ca] when control leaves
    it for the unit [c]. *)
Definition escape_switch (c : ascii) : list ascii :=
  match c with
  | "034"%char (* double quote *)
  | "\"%char
  | "/"%char => <[1:=c]> (<[0:="\"%char]> ca_zero)
  | "008"%char (* \b *) => <[1:="b"%char]> (<[0:="\"%char]> ca_zero)
  | "012"%char (* \f *) => <[1:="f"%char]> (<[0:="\"%char]> ca_zero)
  | "010"%char (* \n *) => <[1:="n"%char]> (<[0:="\"%char]> ca_zero)
  | "013"%char (* \r *) => <[1:="r"%char]> (<[0:="\"%char]> ca_zero)
  | "009"%char (* \t *) => <[1:="t"%char]> (<[0:="\"%char]> ca_zero)
  | _ => <[0:=c]> ca_zero
  end.

(** A [char] array read as a C string: the units before the first NUL.
    This is what [out.append(ca)] appends, [ca] decaying to [const char*]. *)
Fixpoint c_str (ca : list ascii) : string :=
  match ca with
  | [] => EmptyString
  | c :: ca' => if Ascii.eqb c NUL then EmptyString else String c (c_str ca')
  end.

(** The [for] loop of [escape_str], [out] being the accumulator. *)
Fixpoint escape_loop (out : string) (str : string) : string :=
  match str with
  | EmptyString => out
  | String c rest => escape_loop (out +:+ c_str (escape_switch c)) rest
  end.

Definition escape_str (str : string) : string := escape_loop "" str.

(** [JSONString::to_string], on the stored [value]. *)
Definition JSONString_to_string (value : string) : string :=
  let out := String "034"%char EmptyString in
  let out := out +:+ escape_str value in
  let out := out +:+ String "034"%char EmptyString in
  out.

(** ** Outcomes of a call *)

Inductive exception := std_out_of_range.

Inductive outcome (A : Type) : Type :=
| Ret (a : A)              (* the call returns *)
| Throw (e : exception)    (* an exception leaves the call *)
| Undefined                (* null or dangling dereference, unchecked index *)
| OutOfFuel.               (* the recursion bound of the model was reached *)
Arguments Ret {A} a.
Arguments Throw {A} e.
Arguments Undefined {A}.
Arguments OutOfFuel {A}.

#[global] Instance outcome_ret : MRet outcome := @Ret.
#[global] Instance outcome_bind : MBind outcome := fun A B f m =>
  match m with
  | Ret a => f a
  | Throw e => Throw e
  | Undefined => Undefined
  | OutOfFuel => OutOfFuel
  end.

(** A range-based [for] over [l], threading the loop state [s]. *)
Fixpoint for_each {A S : Type} (body : S -> A -> outcome S) (s : S) (l : list A)
  : outcome S :=
  match l with
  | [] => Ret s
  | x :: l' => s' ← body s x; for_each body s' l'
  end.

(** ** The store *)

Definition loc := positive.

(** A [JSONValue*]; [None] is the null pointer. *)
Definition ptr := option loc.
Abbreviation nullptr := (@None loc).

(** ** [std::map<JSONString, JSONValue*>] *)

Module StdMap.

(** Modelled from the spec: the order of [JSONString] keys, which the source
    does not have.  [std::less<JSONString>] needs [a < b] on two
    [JSONString]; the class declares no [operator<], and that of
    [std::string] is a template, for which the conversion operator of
    [JSONString] is not considered.  The spec has the keys ordered by their
    raw value: here unit by unit, as unsigned bytes. *)
Definition key_lt (a b : string) : bool := String.ltb a b.

(** [m[k]] on a map whose keys are compared with [lt]: when no entry has a
    key equivalent to [k], one is inserted in key order with a
    value-initialised (null) pointer. *)
Fixpoint subscript (lt : string -> string -> bool) (k : string)
  (m : list (string * ptr)) : list (string * ptr) :=
  match m with
  | [] => [(k, nullptr)]
  | (k', v) :: m' =>
      if lt k' k then (k', v) :: subscript lt k m'
      else if lt k k' then (k, nullptr) :: (k', v) :: m'
      else (k', v) :: m'
  end.

(** A write through the reference that [m[k]] returned. *)
Fixpoint assign (lt : string -> string -> bool) (k : string) (p : ptr)
  (m : list (string * ptr)) : list (string * ptr) :=
  match m with
  | [] => []
  | (k', v) :: m' =>
      if lt k' k then (k', v) :: assign lt k p m'
      else if lt k k' then (k', v) :: m'
      else (k', p) :: m'
  end.

(** The representation invariant: keys strictly ascending. *)
Fixpoint sorted (m : list (string * ptr)) : bool :=
  match m with
  | [] => true
  | (k, _) :: m' => forallb (fun pa => key_lt k pa.1) m' && sorted m'
  end.

End StdMap.

(** ** The class hierarchy *)

(** The dynamic type of an object together with its data members. *)
Inductive JSONValue :=
| JSONNullType
| JSONBooleanType (value : bool)
| JSONArray (values : list ptr)
| JSONString (value : string)
| JSONObject (values : list (string * ptr)).

(** [*p]: the object a pointer refers to. *)
Definition deref (h : gmap loc JSONValue) (p : ptr) : outcome JSONValue :=
  match p with
  | None => Undefined
  | Some l => match h !! l with None => Undefined | Some v => Ret v end
  end.

(** [new T(...)]: the object is placed at a location that is not in use. *)
Definition alloc (v : JSONValue) (h : gmap loc JSONValue) : loc * gmap loc JSONValue :=
  let l := fresh (dom h) in (l, <[l:=v]> h).

Definition erase_or_throw (out : string) (index : N) : outcome string :=
  match StdString.erase out index with
  | Some s => Ret s
  | None => Throw std_out_of_range
  end.

(** [p->to_string()], dispatched on the dynamic type. *)
Fixpoint to_string (fuel : nat) (h : gmap loc JSONValue) (p : ptr) : outcome string :=
  match fuel with
  | 0 => OutOfFuel
  | S fuel' =>
      v ← deref h p;
      match v with
      | JSONNullType => Ret "null"
      | JSONBooleanType value => Ret (if value then "true" else "false")
      | JSONArray values =>
          out ← for_each (fun out val =>
                   s ← to_string fuel' h val;
                   Ret ((out +:+ s) +:+ ", ")) "[" values;
          out ← erase_or_throw out (StdString.size_t_sub (StdString.size out) 2);
          Ret (out +:+ "]")
      | JSONString value => Ret (JSONString_to_string value)
      | JSONObject values =>
          out ← for_each (fun out pa =>
                   let out := out +:+ JSONString_to_string pa.1 in
                   s ← to_string fuel' h pa.2;
                   Ret (out +:+ s)) "{" values;
          out ← erase_or_throw out (StdString.size_t_sub (StdString.size out) 2);
          Ret (out +:+ "}")
      end
  end.

(** [values.push_back(p)] on the array at [this]. *)
Definition push_back (this : loc) (p : ptr) (h : gmap loc JSONValue)
  : outcome (gmap loc JSONValue) :=
  match h !! this with
  | Some (JSONArray values) => Ret (<[this := JSONArray (values ++ [p])]> h)
  | _ => Undefined
  end.

(** [values[key] = p] on the object at [this]: [operator[]] of the map,
    then the store through the reference it returned.  The map compares
    keys, which the source gives it no means to do (see [StdMap.key_lt]):
    the comparison is the parameter [lt]. *)
Definition map_store (lt : string -> string -> bool) (this : loc) (key : string)
  (p : ptr) (h : gmap loc JSONValue) : outcome (gmap loc JSONValue) :=
  match h !! this with
  | Some (JSONObject values) =>
      Ret (<[this := JSONObject (StdMap.assign lt key p (StdMap.subscript lt key values))]> h)
  | _ => Undefined
  end.

(** [jsonpp::clone(that)], that is [that->clone()]: a [new] of a copy of
    [that].  The copy constructor of [JSONArray] clones the elements in turn
    and appends each clone; that of [JSONObject] runs
    [values[pa.first] = pa.second->clone()] for every entry, the right-hand
    side first, and needs the comparison [lt] of keys that the source does
    not declare. *)
Fixpoint clone (lt : string -> string -> bool) (fuel : nat) (that : ptr)
  (h : gmap loc JSONValue) : outcome (ptr * gmap loc JSONValue) :=
  match fuel with
  | 0 => OutOfFuel
  | S fuel' =>
      v ← deref h that;
      match v with
      | JSONNullType =>
          let '(this, h) := alloc JSONNullType h in Ret (Some this, h)
      | JSONBooleanType value =>
          let '(this, h) := alloc (JSONBooleanType value) h in Ret (Some this, h)
      | JSONArray values =>
          let '(this, h) := alloc (JSONArray []) h in
          h ← for_each (fun h val =>
                 r ← clone lt fuel' val h;
                 push_back this r.1 r.2) h values;
          Ret (Some this, h)
      | JSONString value =>
          let '(this, h) := alloc (JSONString value) h in Ret (Some this, h)
      | JSONObject values =>
          let '(this, h) := alloc (JSONObject []) h in
          h ← for_each (fun h pa =>
                 r ← clone lt fuel' pa.2 h;
                 map_store lt this pa.1 r.1 r.2) h values;
          Ret (Some this, h)
      end
  end.

(** ** Member functions of the containers *)

(** [values[index]] on a [std::vector]: the access is not checked, an index
    that is not below the size is undefined behaviour. *)
Definition vector_subscript (values : list ptr) (index : N) : outcome ptr :=
  match values !! N.to_nat index with
  | Some p => Ret p
  | None => Undefined
  end.

(** [JSONArray::operator[]] on the array at [this]. *)
Definition JSONArray_subscript (this : loc) (index : N) (h : gmap loc JSONValue)
  : outcome ptr :=
  v ← deref h (Some this);
  match v with
  | JSONArray values => vector_subscript values index
  | _ => Undefined
  end.

(** [JSONArray::size]. *)
Definition JSONArray_size (this : loc) (h : gmap loc JSONValue) : outcome N :=
  v ← deref h (Some this);
  match v with
  | JSONArray values => Ret (N.of_nat (length values))
  | _ => Undefined
  end.

(** ** The texts of the serializer *)

(** The text the loop of [JSONArray::to_string] appends to [out], the
    elements having the texts [texts]. *)
Fixpoint with_trailing_separators (texts : list string) : string :=
  match texts with
  | [] => EmptyString
  | s :: texts' => (s +:+ ", ") +:+ with_trailing_separators texts'
  end.

(** The text the loop of [JSONObject::to_string] appends to [out], the
    values of the entries having the texts [texts]. *)
Fixpoint entries_text (values : list (string * ptr)) (texts : list string) : string :=
  match values, texts with
  | pa :: values', s :: texts' =>
      (JSONString_to_string pa.1 +:+ s) +:+ entries_text values' texts'
  | _, _ => EmptyString
  end.

(** ** Well-formed values *)

(** [well_formed F n h p]: [p] is the root of a value of depth below [n]
    whose objects all live in [F]: no pointer in it is null or dangling, and
    every map in it has its keys in strictly ascending order. *)
Fixpoint well_formed (F : gset loc) (n : nat) (h : gmap loc JSONValue) (p : ptr) : bool :=
  match n with
  | 0 => false
  | S n' =>
      match p with
      | None => false
      | Some l =>
          bool_decide (l ∈ F) &&
          match h !! l with
          | None => false
          | Some (JSONArray values) => forallb (well_formed F n' h) values
          | Some (JSONObject values) =>
              StdMap.sorted values && forallb (fun pa => well_formed F n' h pa.2) values
          | Some _ => true
          end
      end
  end.

(** [array_value F n h p]: [p] is the root of a well-formed value in which
    no [JSONObject] occurs: a tree of arrays, of depth below [n] and with
    its objects in [F], over nulls, booleans and strings. *)
Fixpoint array_value (F : gset loc) (n : nat) (h : gmap loc JSONValue) (p : ptr) : bool :=
  match n with
  | 0 => false
  | S n' =>
      match p with
      | None => false
      | Some l =>
          bool_decide (l ∈ F) &&
          match h !! l with
          | None => false
          | Some (JSONArray values) => forallb (array_value F n' h) values
          | Some (JSONObject _) => false
          | Some _ => true
          end
      end
  end.

(** The locations of the objects that make up the value at a pointer. *)
Inductive reachable (h : gmap loc JSONValue) : ptr -> loc -> Prop :=
| reachable_root (l : loc) : reachable h (Some l) l
| reachable_element (l : loc) (values : list ptr) (q : ptr) (l' : loc) :
    h !! l = Some (JSONArray values) -> q ∈ values -> reachable h q l' ->
    reachable h (Some l) l'
| reachable_member (l : loc) (values : list (string * ptr)) (pa : string * ptr) (l' : loc) :
    h !! l = Some (JSONObject values) -> pa ∈ values -> reachable h pa.2 l' ->
    reachable h (Some l) l'.

(** [h2] holds what [h] holds at every location of [F]. *)
Definition agree_on (F : gset loc) (h h2 : gmap loc JSONValue) : Prop :=
  forall l : loc, l ∈ F -> h2 !! l = h !! l.

(** The value at [p'] in [h'] serializes as the value at [p] in [h] does. *)
Definition same_text (h' : gmap loc JSONValue) (p' : ptr)
  (h : gmap loc JSONValue) (p : ptr) : Prop :=
  forall fuel : nat, to_string fuel h' p' = to_string fuel h p.

(** ** Sample values *)

(** The three-element array [Null, Boolean(true), String("a")]. *)
Definition array3_heap : gmap loc JSONValue :=
  <[4%positive := JSONArray [Some 1%positive; Some 2%positive; Some 3%positive]]>
  (<[3%positive := JSONString "a"]>
  (<[2%positive := JSONBooleanType true]>
  (<[1%positive := JSONNullType]> ∅))).

(** The object with the single entry "k" holding Boolean(true). *)
Definition object1_heap : gmap loc JSONValue :=
  <[2%positive := JSONObject [("k", Some 1%positive)]]>
  (<[1%positive := JSONBooleanType true]> ∅).

(** The object [{"x": [true, null]}] of the spec's scenario. *)
Definition nested_heap : gmap loc JSONValue :=
  <[4%positive := JSONObject [("x", Some 3%positive)]]>
  (<[3%positive := JSONArray [Some 1%positive; Some 2%positive]]>
  (<[2%positive := JSONNullType]>
  (<[1%positive := JSONBooleanType true]> ∅))).

(** The array [[true, null], "a"], an array inside an array. *)
Definition nested_array_heap : gmap loc JSONValue :=
  <[5%positive := JSONArray [Some 3%positive; Some 4%positive]]>
  (<[4%positive := JSONString "a"]>
  (<[3%positive := JSONArray [Some 1%positive; Some 2%positive]]>
  (<[2%positive := JSONNullType]>
  (<[1%positive := JSONBooleanType true]> ∅)))).

(** The array [[[]]]: one element, an empty array. *)
Definition array_of_empty_heap : gmap loc JSONValue :=
  <[2%positive := JSONArray [Some 1%positive]]>
  (<[1%positive := JSONArray []]> ∅).

(** The object with the single entry "k" holding an empty array. *)
Definition object_of_empty_heap : gmap loc JSONValue :=
  <[2%positive := JSONObject [("k", Some 1%positive)]]>
  (<[1%positive := JSONArray []]> ∅).

(** ** The escaping rule in the words of the spec *)

Module Spec.

(** The eight listed source characters. *)
Definition listed (c : ascii) : bool :=
  existsb (Ascii.eqb c)
    ["034"; "\"; "/"; "008"; "012"; "010"; "013"; "009"]%char.

(** Each unit maps to: double quote, backslash, slash: backslash followed by
    the original character; backspace, form feed, newline, carriage return,
    horizontal tab: \b, \f, \n, \r, \t; everything else: itself. *)
Definition escape_unit (c : ascii) : string :=
  if existsb (Ascii.eqb c) ["034"; "\"; "/"]%char then String "\"%char (String c EmptyString)
  else if Ascii.eqb c "008"%char then "\b"
  else if Ascii.eqb c "012"%char then "\f"
  else if Ascii.eqb c "010"%char then "\n"
  else if Ascii.eqb c "013"%char then "\r"
  else if Ascii.eqb c "009"%char then "\t"
  else String c EmptyString.

Fixpoint escape (s : string) : string :=
  match s with
  | EmptyString => EmptyString
  | String c s' => escape_unit c +:+ escape s'
  end.

(** A double quote, then escape(s), then a double quote. *)
Definition string_text (s : string) : string :=
  String "034"%char (escape s +:+ String "034"%char EmptyString).

End Spec.

(** ** The rest of the interface *)

(** The object [create()] builds for an object of each class: [new T()]. *)
Definition default_instance (v : JSONValue) : JSONValue :=
  match v with
  | JSONNullType => JSONNullType
  | JSONBooleanType _ => JSONBooleanType false
  | JSONArray _ => JSONArray []
  | JSONString _ => JSONString ""
  | JSONObject _ => JSONObject []
  end.

(** [that->create()], dispatched on the dynamic type. *)
Definition create (that : ptr) (h : gmap loc JSONValue)
  : outcome (ptr * gmap loc JSONValue) :=
  v ← deref h that;
  let '(this, h) := alloc (default_instance v) h in Ret (Some this, h).

(** The pointers an object holds. *)
Definition children (v : JSONValue) : list ptr :=
  match v with
  | JSONArray values => values
  | JSONObject values => values.*2
  | _ => []
  end.

(** The storage of the object at [l] is given back; doing so for a location
    that holds no object is a double release. *)
Definition release (l : loc) (h : gmap loc JSONValue) : outcome (gmap loc JSONValue) :=
  match h !! l with
  | Some _ => Ret (delete l h)
  | None => Undefined
  end.

(** [delete p]: nothing for a null pointer; otherwise the virtual destructor
    runs ([~JSONArray] and [~JSONObject] delete every pointer they hold, in
    order) and the storage is released. *)
Fixpoint delete_value (fuel : nat) (p : ptr) (h : gmap loc JSONValue)
  : outcome (gmap loc JSONValue) :=
  match fuel with
  | 0 => OutOfFuel
  | S fuel' =>
      match p with
      | None => Ret h
      | Some l =>
          v ← deref h p;
          h ← match v with
              | JSONArray values =>
                  for_each (fun h ptr => delete_value fuel' ptr h) h values
              | JSONObject values =>
                  for_each (fun h pa => delete_value fuel' pa.2 h) h values
              | _ => Ret h
              end;
          release l h
      end
  end.

(** [a[index] = p] on the array at [this]: a store through the reference
    that the non-const [JSONArray::operator[]] returns.  The access is not
    checked. *)
Definition JSONArray_store (this : loc) (index : N) (p : ptr) (h : gmap loc JSONValue)
  : outcome (gmap loc JSONValue) :=
  v ← deref h (Some this);
  match v with
  | JSONArray values =>
      match values !! N.to_nat index with
      | Some _ => Ret (<[this := JSONArray (<[N.to_nat index := p]> values)]> h)
      | None => Undefined
      end
  | _ => Undefined
  end.

(** Some container of the value at [p] holds nothing. *)
Fixpoint has_empty_container (n : nat) (h : gmap loc JSONValue) (p : ptr) : bool :=
  match n with
  | 0 => false
  | S n' =>
      match p ≫= (h !!.) with
      | Some (JSONArray values) =>
          match values with
          | [] => true
          | _ => existsb (has_empty_container n' h) values
          end
      | Some (JSONObject values) =>
          match values with
          | [] => true
          | _ => existsb (fun pa => has_empty_container n' h pa.2) values
          end
      | _ => false
      end
  end.

(** One escaped unit read back from the front of a text. *)
Definition unescape_head (text : string) : option (ascii * string) :=
  match text with
  | EmptyString => None
  | String "\"%char (String x rest) =>
      match x with
      | "b"%char => Some ("008"%char, rest)
      | "f"%char => Some ("012"%char, rest)
      | "n"%char => Some ("010"%char, rest)
      | "r"%char => Some ("013"%char, rest)
      | "t"%char => Some ("009"%char, rest)
      | _ => Some (x, rest)
      end
  | String c rest => Some (c, rest)
  end.

(** The units that are never written as they are. *)
Definition raw_control (c : ascii) : bool :=
  existsb (Ascii.eqb c) ["000"; "008"; "012"; "010"; "013"; "009"]%char.

(** ** Ownership *)

(** The objects a list of pointers owns, each through [f], when no object is
    owned twice. *)
Fixpoint footprints (f : ptr -> option (gset loc)) (ps : list ptr) : option (gset loc) :=
  match ps with
  | [] => Some ∅
  | p :: ps' =>
      D1 ← f p;
      D2 ← footprints f ps';
      if decide (D1 ## D2) then Some (D1 ∪ D2) else None
  end.

(** [footprint n h p]: the set of the objects of the value at [p], when
    that value is a tree of depth below [n]: every pointer in it is null or
    refers to an object, and no object is referred to twice. *)
Fixpoint footprint (n : nat) (h : gmap loc JSONValue) (p : ptr) : option (gset loc) :=
  match n with
  | 0 => None
  | S n' =>
      match p with
      | None => Some ∅
      | Some l =>
          v ← h !! l;
          D ← footprints (footprint n' h) (children v);
          if decide (l ∈ D) then None else Some ({[l]} ∪ D)
      end
  end.

(** The store without the objects of [D]. *)
Definition free (D : gset loc) (h : gmap loc JSONValue) : gmap loc JSONValue :=
  filter (fun kv => kv.1 ∉ D) h.


(** * Properties *)

(** ** Strings *)

Section string_facts.

Lemma append_cons (x : ascii) (a b : string) :
  String x a +:+ b = String x (a +:+ b).
Proof. reflexivity. Qed.

Lemma append_empty_l (a : string) : "" +:+ a = a.
Proof. reflexivity. Qed.

Lemma append_assoc (a b c : string) : (a +:+ b) +:+ c = a +:+ (b +:+ c).
Proof.
  induction a as [|x a IH]; [reflexivity |].
  now rewrite !append_cons, IH.
Qed.

Lemma append_empty_r (a : string) : a +:+ "" = a.
Proof.
  induction a as [|x a IH]; [reflexivity |].
  now rewrite append_cons, IH.
Qed.

Lemma length_append (a b : string) :
  String.length (a +:+ b) = String.length a + String.length b.
Proof.
  induction a as [|x a IH]; [reflexivity |].
  rewrite append_cons. simpl. now rewrite IH.
Qed.

Lemma prefix_of_append (a b : string) :
  StdString.prefix_of (String.length a) (a +:+ b) = a.
Proof.
  induction a as [|x a IH]; [now destruct b |].
  rewrite append_cons. simpl. now rewrite IH.
Qed.

Lemma size_append (a b : string) :
  StdString.size (a +:+ b) = (StdString.size a + StdString.size b)%N.
Proof. unfold StdString.size. rewrite length_append. lia. Qed.

(** On operands in range, [size_t_sub] is subtraction modulo [2^64]. *)
Lemma size_t_sub_mod (a b : N) :
  (a < StdString.size_t_modulus)%N -> (b < StdString.size_t_modulus)%N ->
  Z.of_N (StdString.size_t_sub a b)
  = ((Z.of_N a - Z.of_N b) mod Z.of_N StdString.size_t_modulus)%Z.
Proof.
  intros Ha Hb. unfold StdString.size_t_sub.
  destruct (N.ltb_spec a b) as [Hlt | Hge].
  - apply Z.mod_unique_pos with (q := (-1)%Z); lia.
  - apply Z.mod_unique_pos with (q := 0%Z); lia.
Qed.

(** Erasing from [size() - 2] on removes a two-unit tail. *)
Lemma erase_tail2 (a t : string) :
  String.length t = 2 ->
  StdString.erase (a +:+ t) (StdString.size_t_sub (StdString.size (a +:+ t)) 2)
  = Some a.
Proof.
  intros Ht. unfold StdString.erase, StdString.size_t_sub.
  rewrite size_append. unfold StdString.size. rewrite Ht.
  set (n := String.length a).
  destruct (N.ltb_spec (N.of_nat n + N.of_nat 2) 2) as [Hlt | _]; [lia |].
  replace (N.of_nat n + N.of_nat 2 - 2)%N with (N.of_nat n) by lia.
  destruct (N.ltb_spec (N.of_nat n + N.of_nat 2) (N.of_nat n)) as [Hlt | _]; [lia |].
  rewrite Nat2N.id. subst n. now rewrite prefix_of_append.
Qed.

(** When at least two units are there, the trim of [erase] is [drop_last2]. *)
Lemma erase_drop_last2 (s : string) :
  2 <= String.length s ->
  StdString.erase s (StdString.size_t_sub (StdString.size s) 2)
  = Some (StdString.drop_last2 s).
Proof.
  intros Hs. unfold StdString.erase, StdString.size_t_sub, StdString.drop_last2,
    StdString.size.
  destruct (N.ltb_spec (N.of_nat (String.length s)) 2) as [Hlt | _]; [lia |].
  destruct (N.ltb_spec (N.of_nat (String.length s)) (N.of_nat (String.length s) - 2))
    as [Hlt | _]; [lia |].
  do 2 f_equal. lia.
Qed.

Lemma drop_last2_cons (c : ascii) (s : string) :
  2 <= String.length s ->
  StdString.drop_last2 (String c s) = String c (StdString.drop_last2 s).
Proof.
  intros Hs. unfold StdString.drop_last2. simpl String.length.
  replace (S (String.length s) - 2) with (S (String.length s - 2)) by lia.
  reflexivity.
Qed.

End string_facts.

(** ** [escape_str] *)

Section escape_facts.

Lemma escape_loop_out (out str : string) :
  escape_loop out str = out +:+ escape_str str.
Proof.
  unfold escape_str. revert out.
  induction str as [|c str IH]; intros out; simpl.
  - now rewrite append_empty_r.
  - rewrite IH, (IH ("" +:+ c_str (escape_switch c))).
    now rewrite append_empty_l, append_assoc.
Qed.

Lemma escape_str_cons (c : ascii) (str : string) :
  escape_str (String c str) = c_str (escape_switch c) +:+ escape_str str.
Proof. unfold escape_str at 1. simpl. apply escape_loop_out. Qed.

Lemma escape_str_app (s1 s2 : string) :
  escape_str (s1 +:+ s2) = escape_str s1 +:+ escape_str s2.
Proof.
  induction s1 as [|c s1 IH]; [reflexivity |].
  now rewrite append_cons, !escape_str_cons, IH, append_assoc.
Qed.

(** What one unit contributes to the output. *)
Lemma c_str_escape_switch (c : ascii) :
  c_str (escape_switch c)
  = if Spec.listed c then Spec.escape_unit c
    else if Ascii.eqb c NUL then EmptyString
    else String c EmptyString.
Proof. destruct c as [[] [] [] [] [] [] [] []]; reflexivity. Qed.

(** On a string without a NUL the code and the rule of the spec agree. *)
Lemma escape_str_without_NUL (s : string) :
  ~ In NUL (list_ascii_of_string s) -> escape_str s = Spec.escape s.
Proof.
  induction s as [|c s IH]; [reflexivity |]. simpl. intros Hnul.
  rewrite escape_str_cons, c_str_escape_switch, IH by tauto.
  destruct (Spec.listed c) eqn:Hlisted; [reflexivity |].
  destruct (Ascii.eqb_spec c NUL) as [-> | _]; [tauto |].
  f_equal. revert Hlisted. clear.
  destruct c as [[] [] [] [] [] [] [] []]; (discriminate || reflexivity).
Qed.

Lemma JSONString_to_string_quotes (value : string) :
  JSONString_to_string value
  = String "034"%char (escape_str value +:+ String "034"%char EmptyString).
Proof. reflexivity. Qed.

Lemma JSONString_to_string_length (value : string) :
  2 <= String.length (JSONString_to_string value).
Proof.
  rewrite JSONString_to_string_quotes. simpl. rewrite length_append. simpl. lia.
Qed.

End escape_facts.

(** C1, at the input that separates the code from the claim: for the
    one-unit string holding a NUL, [JSONString::to_string] returns two double
    quotes with nothing in between, where a double quote, the escaped
    string with the NUL passed through unchanged, and a double quote was
    claimed. *)
Theorem JSONString_to_string_NUL :
  let s := String NUL EmptyString in
  Spec.listed NUL = false /\
  escape_str s = EmptyString /\
  JSONString_to_string s = String "034"%char (String "034"%char EmptyString) /\
  Spec.string_text s = String "034"%char (String NUL (String "034"%char EmptyString)) /\
  JSONString_to_string s <> Spec.string_text s.
Proof. cbv zeta. repeat split. discriminate. Qed.

(** C9: a unit that is not one of the eight listed ones is not always passed
    through: wherever it stands in the input, a NUL contributes nothing to
    the output of [escape_str], and every other such unit contributes
    itself. *)
Theorem escape_str_drops_NUL (c : ascii) (s1 s2 : string) :
  Spec.listed c = false ->
  escape_str (s1 +:+ String c s2)
  = escape_str s1 +:+ (if Ascii.eqb c NUL then escape_str s2
                       else String c (escape_str s2)).
Proof.
  intros Hc. rewrite escape_str_app, escape_str_cons, c_str_escape_switch, Hc.
  now destruct (Ascii.eqb c NUL).
Qed.

Lemma escape_str_drops_NUL_witness :
  Spec.listed NUL = false /\
  escape_str ("a" +:+ String NUL "b") = "ab".
Proof.
  split; [reflexivity |].
  rewrite (escape_str_drops_NUL NUL "a" "b"); reflexivity.
Defined.

(** ** [to_string] of the containers *)

Section to_string_facts.

Context (fuel : nat) (h : gmap loc JSONValue).

Lemma with_trailing_separators_concat (texts : list string) :
  texts <> [] ->
  with_trailing_separators texts = String.concat ", " texts +:+ ", ".
Proof.
  induction texts as [|s texts IH]; [congruence | intros _].
  destruct texts as [|s' texts].
  - simpl. now rewrite append_empty_r.
  - change (String.concat ", " (s :: s' :: texts))
      with (s +:+ ", " +:+ String.concat ", " (s' :: texts)).
    simpl with_trailing_separators in *.
    rewrite IH by congruence. now rewrite !append_assoc.
Qed.

Lemma JSONArray_loop (values : list ptr) (texts : list string) (out : string) :
  Forall2 (fun val s => to_string fuel h val = Ret s) values texts ->
  for_each (fun out val =>
              s ← to_string fuel h val;
              Ret ((out +:+ s) +:+ ", ")) out values
  = Ret (out +:+ with_trailing_separators texts).
Proof.
  intros Hall. revert out.
  induction Hall as [|val s values texts Hval _ IH]; intros out; simpl.
  - now rewrite append_empty_r.
  - rewrite Hval. simpl. rewrite IH. now rewrite !append_assoc.
Qed.

Lemma JSONObject_loop (values : list (string * ptr)) (texts : list string) (out : string) :
  Forall2 (fun pa s => to_string fuel h pa.2 = Ret s) values texts ->
  for_each (fun out pa =>
              s ← to_string fuel h pa.2;
              Ret ((out +:+ JSONString_to_string pa.1) +:+ s)) out values
  = Ret (out +:+ entries_text values texts).
Proof.
  intros Hall. revert out.
  induction Hall as [|pa s values texts Hval _ IH]; intros out; simpl.
  - now rewrite append_empty_r.
  - rewrite Hval. simpl. rewrite IH. now rewrite !append_assoc.
Qed.

Lemma entries_text_length (values : list (string * ptr)) (texts : list string) :
  values <> [] -> length values = length texts ->
  2 <= String.length (entries_text values texts).
Proof.
  destruct values as [|pa values]; [congruence |].
  destruct texts as [|s texts]; [discriminate |]. intros _ _.
  cbn [entries_text]. rewrite !length_append.
  pose proof (JSONString_to_string_length pa.1). lia.
Qed.

End to_string_facts.

(** C3, as the code has it: a non-empty array all of whose elements
    serialize is rendered as an opening bracket, the texts of the elements in
    storage order joined by a comma and a space, and a closing bracket. *)
Theorem JSONArray_to_string_joined
  (fuel : nat) (h : gmap loc JSONValue) (this : loc)
  (values : list ptr) (texts : list string) :
  h !! this = Some (JSONArray values) ->
  values <> [] ->
  Forall2 (fun val s => to_string fuel h val = Ret s) values texts ->
  to_string (S fuel) h (Some this)
  = Ret ("[" +:+ String.concat ", " texts +:+ "]").
Proof.
  intros Hthis Hne Hall. simpl. rewrite Hthis. simpl.
  rewrite (JSONArray_loop fuel h values texts "[" Hall). simpl.
  assert (Htexts : texts <> []).
  { intros ->. apply Forall2_length in Hall. destruct values; [congruence | discriminate]. }
  rewrite with_trailing_separators_concat by exact Htexts.
  rewrite <- append_assoc. unfold erase_or_throw.
  rewrite erase_tail2 by reflexivity. simpl.
  now rewrite append_assoc.
Qed.

Lemma JSONArray_to_string_joined_witness :
  to_string 2 array3_heap (Some 4%positive)
  = Ret (String.concat "" ["[null, true, "; JSONString_to_string "a"; "]"]).
Proof.
  apply (JSONArray_to_string_joined 1 array3_heap 4%positive
           [Some 1%positive; Some 2%positive; Some 3%positive]
           ["null"; "true"; JSONString_to_string "a"]).
  - reflexivity.
  - discriminate.
  - repeat constructor.
Defined.

(** C3 as stated fails: the array [[[]]] is not empty, and [to_string] on
    it returns at no recursion bound; the call on its element, an empty
    array, throws [std::out_of_range]. *)
Lemma JSONArray_to_string_nested_empty :
  JSONArray_size 2%positive array_of_empty_heap = Ret 1%N /\
  to_string 2 array_of_empty_heap (Some 2%positive) = Throw std_out_of_range /\
  forall (fuel : nat) (s : string),
    to_string fuel array_of_empty_heap (Some 2%positive) <> Ret s.
Proof.
  split; [reflexivity |]. split; [reflexivity |].
  intros [|[|fuel]] s; vm_compute; discriminate.
Qed.

(** C4, on the code as it stands: the trim is not guarded, and for an empty
    array or object [out.size() - 2] wraps around to [2^64 - 1], so that
    [erase] throws [std::out_of_range] where the texts of an empty pair of
    brackets and of an empty pair of braces were claimed. *)
Theorem empty_container_to_string_throws (fuel : nat) (this : loc) :
  to_string (S fuel) {[this := JSONArray []]} (Some this) = Throw std_out_of_range /\
  to_string (S fuel) {[this := JSONObject []]} (Some this) = Throw std_out_of_range.
Proof. split; simpl; rewrite lookup_singleton_eq; reflexivity. Qed.

(** C5, as the code has it: a non-empty object all of whose values
    serialize is rendered as an opening brace, then for each entry, in the
    order in which the map iterates, the quoted and escaped key immediately
    followed by the text of the value, with no colon and no separator, the
    last two units of the text accumulated so far removed, and a closing
    brace. *)
Theorem JSONObject_to_string_trimmed
  (fuel : nat) (h : gmap loc JSONValue) (this : loc)
  (values : list (string * ptr)) (texts : list string) :
  h !! this = Some (JSONObject values) ->
  values <> [] ->
  Forall2 (fun pa s => to_string fuel h pa.2 = Ret s) values texts ->
  to_string (S fuel) h (Some this)
  = Ret (StdString.drop_last2 ("{" +:+ entries_text values texts) +:+ "}") /\
  StdString.drop_last2 ("{" +:+ entries_text values texts)
  = "{" +:+ StdString.drop_last2 (entries_text values texts).
Proof.
  intros Hthis Hne Hall.
  pose proof (entries_text_length values texts Hne (Forall2_length _ _ _ Hall)) as Hlen.
  split.
  - simpl. rewrite Hthis. simpl.
    rewrite (JSONObject_loop fuel h values texts "{" Hall). simpl.
    unfold erase_or_throw. rewrite erase_drop_last2; [reflexivity |].
    rewrite length_append. simpl. lia.
  - rewrite append_cons, append_empty_l. now apply drop_last2_cons.
Qed.

Lemma JSONObject_to_string_trimmed_witness :
  to_string 2 object1_heap (Some 2%positive)
  = Ret (String.concat "" ["{"; JSONString_to_string "k"; "tr}"]).
Proof.
  destruct (JSONObject_to_string_trimmed 1 object1_heap 2%positive
              [("k", Some 1%positive)] ["true"]) as [Hret _].
  - reflexivity.
  - discriminate.
  - repeat constructor.
  - exact Hret.
Defined.

(** C5 as stated fails: the object with the one entry "k" holding an empty
    array is not empty, and [to_string] on it returns at no recursion bound;
    the call on its value throws [std::out_of_range]. *)
Lemma JSONObject_to_string_nested_empty :
  object_of_empty_heap !! 2%positive = Some (JSONObject [("k", Some 1%positive)]) /\
  to_string 2 object_of_empty_heap (Some 2%positive) = Throw std_out_of_range /\
  forall (fuel : nat) (s : string),
    to_string fuel object_of_empty_heap (Some 2%positive) <> Ret s.
Proof.
  split; [reflexivity |]. split; [reflexivity |].
  intros [|[|fuel]] s; vm_compute; discriminate.
Qed.

(** ** Indexed access *)

(** C7, as the code has it: below the size the indexed access yields the
    stored element; from the size on it is the unchecked access of
    [std::vector], undefined behaviour, and nothing is signaled. *)
Theorem JSONArray_subscript_unchecked
  (this : loc) (index : N) (h : gmap loc JSONValue) (values : list ptr) :
  h !! this = Some (JSONArray values) ->
  ((index < N.of_nat (length values))%N ->
   exists p, values !! N.to_nat index = Some p /\
             JSONArray_subscript this index h = Ret p) /\
  ((N.of_nat (length values) <= index)%N ->
   JSONArray_subscript this index h = Undefined).
Proof.
  intros Hthis. unfold JSONArray_subscript, vector_subscript. simpl. rewrite Hthis. simpl.
  split; intros Hi.
  - destruct (lookup_lt_is_Some_2 values (N.to_nat index)) as [p Hp]; [lia |].
    exists p. now rewrite Hp.
  - rewrite (proj2 (lookup_ge_None values (N.to_nat index))); [reflexivity | lia].
Qed.

Lemma JSONArray_subscript_unchecked_witness :
  JSONArray_subscript 4%positive 1 array3_heap = Ret (Some 2%positive) /\
  JSONArray_subscript 4%positive 3 array3_heap = Undefined.
Proof.
  destruct (JSONArray_subscript_unchecked 4%positive 1 array3_heap
              [Some 1%positive; Some 2%positive; Some 3%positive] eq_refl)
    as [Hin _].
  destruct (JSONArray_subscript_unchecked 4%positive 3 array3_heap
              [Some 1%positive; Some 2%positive; Some 3%positive] eq_refl)
    as [_ Hout].
  split.
  - destruct Hin as (p & Hp & Hret); [reflexivity |].
    injection Hp as <-. exact Hret.
  - apply Hout. simpl. lia.
Defined.

(** C7 as stated fails: on the three-element array the access at index 3,
    the size, does not throw [std::out_of_range]. *)
Lemma JSONArray_subscript_no_out_of_range :
  JSONArray_size 4%positive array3_heap = Ret 3%N /\
  JSONArray_subscript 4%positive 3 array3_heap <> Throw std_out_of_range.
Proof. split; [reflexivity | discriminate]. Qed.

(** ** Cloning *)

Section clone_facts.

#[local] Set Warnings "-clear-no-such-hyp".

Lemma for_each_Forall2 {A B S : Type}
  (body1 : S -> A -> outcome S) (body2 : S -> B -> outcome S)
  (l1 : list A) (l2 : list B) (s : S) :
  Forall2 (fun x y => forall s, body1 s x = body2 s y) l1 l2 ->
  for_each body1 s l1 = for_each body2 s l2.
Proof.
  intros Hall. revert s.
  induction Hall as [|x y l1 l2 Hxy _ IH]; intros s; simpl; [reflexivity |].
  rewrite Hxy. destruct (body2 s y); simpl; auto.
Qed.

Lemma for_each_ext {A S : Type} (body1 body2 : S -> A -> outcome S)
  (l : list A) (s : S) :
  Forall (fun x => forall s, body1 s x = body2 s x) l ->
  for_each body1 s l = for_each body2 s l.
Proof.
  intros Hall. apply for_each_Forall2.
  induction Hall; constructor; auto.
Qed.

Lemma well_formed_frame (F : gset loc) (n : nat) (h h2 : gmap loc JSONValue) :
  agree_on F h h2 ->
  forall p : ptr,
    well_formed F n h p = true ->
    well_formed F n h2 p = true /\ same_text h2 p h p.
Proof.
  intros Hagree. induction n as [|n IH]; intros p; simpl; [discriminate |].
  destruct p as [l|]; [| discriminate].
  intros [HF Hnode]%andb_true_iff.
  pose proof (Hagree l (proj1 (bool_decide_eq_true _) HF)) as Hl.
  rewrite HF, Hl. simpl.
  destruct (h !! l) as [[| b | values | s | values]|] eqn:Hhl; try discriminate.
  - split; [reflexivity |]. intros [|f]; simpl; [reflexivity |]. now rewrite Hl, Hhl.
  - split; [reflexivity |]. intros [|f]; simpl; [reflexivity |]. now rewrite Hl, Hhl.
  - rewrite forallb_forall in Hnode.
    assert (Hch : Forall (fun q => well_formed F n h2 q = true /\ same_text h2 q h q) values).
    { apply Forall_forall. intros q Hq. apply IH, Hnode. now apply list_elem_of_In. }
    split.
    + apply forallb_forall. intros q Hq%list_elem_of_In.
      rewrite Forall_forall in Hch. now apply Hch.
    + intros [|f]; simpl; [reflexivity |]. rewrite Hl, Hhl. simpl.
      erewrite for_each_ext; [reflexivity |].
      eapply Forall_impl; [exact Hch |]. intros q [_ Hq] out. simpl. now rewrite (Hq f).
  - split; [reflexivity |]. intros [|f]; simpl; [reflexivity |]. now rewrite Hl, Hhl.
  - apply andb_true_iff in Hnode as [Hsorted Hnode]. rewrite Hsorted. simpl.
    rewrite forallb_forall in Hnode.
    assert (Hch : Forall (fun pa : string * ptr =>
                            well_formed F n h2 pa.2 = true /\ same_text h2 pa.2 h pa.2)
                    values).
    { apply Forall_forall. intros pa Hpa. apply IH, Hnode. now apply list_elem_of_In. }
    split.
    + apply forallb_forall. intros pa Hpa%list_elem_of_In.
      rewrite Forall_forall in Hch. now apply Hch.
    + intros [|f]; simpl; [reflexivity |]. rewrite Hl, Hhl. simpl.
      erewrite for_each_ext; [reflexivity |].
      eapply Forall_impl; [exact Hch |]. intros pa [_ Hpa] out. simpl. now rewrite (Hpa f).
Qed.

Lemma agree_on_dom (h h2 : gmap loc JSONValue) :
  agree_on (dom h) h h2 -> dom h ⊆ dom h2.
Proof.
  intros Hagree l Hl. pose proof (Hagree l Hl) as Heq.
  apply elem_of_dom in Hl. apply elem_of_dom. now rewrite Heq.
Qed.

Lemma array_value_frame (F : gset loc) (n : nat) (h h2 : gmap loc JSONValue) :
  agree_on F h h2 ->
  forall p : ptr,
    array_value F n h p = true ->
    array_value F n h2 p = true /\ same_text h2 p h p.
Proof.
  intros Hagree. induction n as [|n IH]; intros p; simpl; [discriminate |].
  destruct p as [l|]; [| discriminate].
  intros [HF Hnode]%andb_true_iff.
  pose proof (Hagree l (proj1 (bool_decide_eq_true _) HF)) as Hl.
  rewrite HF, Hl. simpl.
  destruct (h !! l) as [[| b | values | s | values]|] eqn:Hhl; try discriminate.
  - split; [reflexivity |]. intros [|f]; simpl; [reflexivity |]. now rewrite Hl, Hhl.
  - split; [reflexivity |]. intros [|f]; simpl; [reflexivity |]. now rewrite Hl, Hhl.
  - rewrite forallb_forall in Hnode.
    assert (Hch : Forall (fun q => array_value F n h2 q = true /\ same_text h2 q h q) values).
    { apply Forall_forall. intros q Hq. apply IH, Hnode. now apply list_elem_of_In. }
    split.
    + apply forallb_forall. intros q Hq%list_elem_of_In.
      rewrite Forall_forall in Hch. now apply Hch.
    + intros [|f]; simpl; [reflexivity |]. rewrite Hl, Hhl. simpl.
      erewrite for_each_ext; [reflexivity |].
      eapply Forall_impl; [exact Hch |]. intros q [_ Hq] out. simpl. now rewrite (Hq f).
  - split; [reflexivity |]. intros [|f]; simpl; [reflexivity |]. now rewrite Hl, Hhl.
Qed.

Lemma array_value_mono (F F' : gset loc) (n : nat) (h : gmap loc JSONValue) :
  F ⊆ F' ->
  forall p : ptr, array_value F n h p = true -> array_value F' n h p = true.
Proof.
  intros Hsub. induction n as [|n IH]; intros p; simpl; [discriminate |].
  destruct p as [l|]; [| discriminate].
  intros [HF Hnode]%andb_true_iff.
  apply bool_decide_eq_true in HF.
  rewrite (bool_decide_eq_true_2 (l ∈ F')) by set_solver. simpl.
  destruct (h !! l) as [[| b | values | s | values]|]; try discriminate; try reflexivity.
  rewrite forallb_forall in Hnode. apply forallb_forall. intros q Hq. now apply IH, Hnode.
Qed.

End clone_facts.

Section clone_loops.

#[local] Set Warnings "-clear-no-such-hyp".

(** The comparison [lt] handed to [clone], the depth bound [n] of the
    elements, the property of [clone] at that depth, the store [h] before the
    call and the location [this] of the array under construction. *)
Context (lt : string -> string -> bool) (n : nat).
Context (IHclone : forall (h : gmap loc JSONValue) (p : ptr),
  array_value (dom h) n h p = true ->
  exists (p' : ptr) (h' : gmap loc JSONValue),
    clone lt n p h = Ret (p', h') /\
    agree_on (dom h) h h' /\
    array_value (dom h' ∖ dom h) n h' p' = true /\
    same_text h' p' h p).
Context (h : gmap loc JSONValue) (this : loc) (Hthis : this ∉ dom h).

(** One round of the copy loop: the element is cloned in the store [g], and
    then the array at [this] is overwritten. *)
Lemma clone_step (q : ptr) (g : gmap loc JSONValue) :
  agree_on (dom h) h g ->
  this ∈ dom g ->
  array_value (dom h) n h q = true ->
  exists (q' : ptr) (g' : gmap loc JSONValue),
    clone lt n q g = Ret (q', g') /\
    g' !! this = g !! this /\
    forall v : JSONValue,
      agree_on (dom h) h (<[this := v]> g') /\
      (forall p' : ptr,
          array_value (dom g ∖ dom h ∖ {[this]}) n g p' = true ->
          array_value (dom (<[this := v]> g') ∖ dom h ∖ {[this]}) n (<[this := v]> g') p' = true /\
          same_text (<[this := v]> g') p' g p') /\
      array_value (dom (<[this := v]> g') ∖ dom h ∖ {[this]}) n (<[this := v]> g') q' = true /\
      same_text (<[this := v]> g') q' h q.
Proof.
  intros Hhg Hthisg Hq.
  pose proof (agree_on_dom h g Hhg) as Hdom.
  destruct (array_value_frame (dom h) n h g Hhg q Hq) as [Hqg Htext_g].
  apply (array_value_mono (dom h) (dom g) n g Hdom) in Hqg.
  destruct (IHclone g q Hqg) as (q' & g' & Hclone & Hgg' & Hq' & Htext_g').
  pose proof (agree_on_dom g g' Hgg') as Hdom'.
  exists q', g'. split; [exact Hclone |]. split; [now apply Hgg' |].
  intros v.
  assert (Hdom'' : dom (<[this := v]> g') = dom g').
  { rewrite dom_insert_L. set_solver. }
  rewrite Hdom''.
  assert (Hne : forall l : loc, l ∈ dom g' ∖ dom g -> l <> this) by set_solver.
  split; [| split; [| split]].
  - intros l Hl. rewrite lookup_insert_ne by set_solver.
    rewrite (Hgg' l) by set_solver. now apply Hhg.
  - intros p' Hp'.
    assert (Hagree : agree_on (dom g ∖ dom h ∖ {[this]}) g (<[this := v]> g')).
    { intros l Hl. rewrite lookup_insert_ne by set_solver. apply Hgg'. set_solver. }
    destruct (array_value_frame _ n g _ Hagree p' Hp') as [Hwf Htext].
    split; [| exact Htext].
    revert Hwf. apply array_value_mono. set_solver.
  - assert (Hagree : agree_on (dom g' ∖ dom g) g' (<[this := v]> g')).
    { intros l Hl. now rewrite lookup_insert_ne by (symmetry; apply Hne, Hl). }
    destruct (array_value_frame _ n g' _ Hagree q' Hq') as [Hwf _].
    revert Hwf. apply array_value_mono. set_solver.
  - intros f.
    assert (Hagree : agree_on (dom g' ∖ dom g) g' (<[this := v]> g')).
    { intros l Hl. now rewrite lookup_insert_ne by (symmetry; apply Hne, Hl). }
    destruct (array_value_frame _ n g' _ Hagree q' Hq') as [_ Hframe].
    now rewrite (Hframe f), (Htext_g' f), (Htext_g f).
Qed.

Lemma clone_array_loop (rest : list ptr) :
  forall (done acc : list ptr) (g : gmap loc JSONValue),
    agree_on (dom h) h g ->
    g !! this = Some (JSONArray acc) ->
    Forall2 (fun p' p =>
               array_value (dom g ∖ dom h ∖ {[this]}) n g p' = true /\
               same_text g p' h p) acc done ->
    Forall (fun q => array_value (dom h) n h q = true) rest ->
    exists (g' : gmap loc JSONValue) (acc' : list ptr),
      for_each (fun g val => r ← clone lt n val g; push_back this r.1 r.2) g rest = Ret g' /\
      agree_on (dom h) h g' /\
      g' !! this = Some (JSONArray acc') /\
      Forall2 (fun p' p =>
                 array_value (dom g' ∖ dom h ∖ {[this]}) n g' p' = true /\
                 same_text g' p' h p) acc' (done ++ rest).
Proof.
  induction rest as [|q rest IH]; intros done acc g Hhg Hg Hacc Hrest.
  - exists g, acc. rewrite app_nil_r. now repeat split.
  - apply Forall_cons in Hrest as [Hq Hrest].
    destruct (clone_step q g Hhg) as (q' & g' & Hclone & Hsame & Hafter);
      [apply elem_of_dom; now rewrite Hg | exact Hq |].
    destruct (Hafter (JSONArray (acc ++ [q']))) as (Hhg'' & Hold & Hq' & Htext').
    destruct (IH (done ++ [q]) (acc ++ [q']) (<[this := JSONArray (acc ++ [q'])]> g'))
      as (g3 & acc3 & Hloop & Hinv).
    + exact Hhg''.
    + apply lookup_insert_eq.
    + apply Forall2_app; [| now repeat constructor].
      eapply Forall2_impl; [exact Hacc |]. intros p' p [Hwf Hp].
      destruct (Hold p' Hwf) as [Hwf' Hframe].
      split; [exact Hwf' |]. intros f. now rewrite (Hframe f), (Hp f).
    + exact Hrest.
    + exists g3, acc3. rewrite <- app_assoc in Hinv. simpl in Hinv.
      split; [| exact Hinv]. simpl. rewrite Hclone. simpl.
      unfold push_back. rewrite Hsame, Hg. exact Hloop.
Qed.

End clone_loops.

Section clone_correct.

#[local] Set Warnings "-clear-no-such-hyp".

Lemma clone_leaf (n : nat) (h : gmap loc JSONValue) (l : loc) (v : JSONValue) :
  h !! l = Some v ->
  match v with JSONArray _ | JSONObject _ => False | _ => True end ->
  let this := fresh (dom h) in
  let h' := <[this := v]> h in
  agree_on (dom h) h h' /\
  array_value (dom h' ∖ dom h) (S n) h' (Some this) = true /\
  same_text h' (Some this) h (Some l).
Proof.
  intros Hl Hleaf this h'.
  assert (Hfresh : this ∉ dom h) by apply is_fresh.
  assert (Hin : this ∈ dom h' ∖ dom h).
  { unfold h'. rewrite dom_insert_L. set_solver. }
  split; [| split].
  - intros l' Hl'. unfold h'. rewrite lookup_insert_ne; [reflexivity | set_solver].
  - simpl. rewrite (bool_decide_eq_true_2 _ Hin). unfold h'. rewrite lookup_insert_eq.
    now destruct v.
  - intros [|f]; simpl; [reflexivity |]. unfold h'. rewrite lookup_insert_eq, Hl.
    now destruct v.
Qed.

Lemma clone_spec (lt : string -> string -> bool) (n : nat) :
  forall (h : gmap loc JSONValue) (p : ptr),
    array_value (dom h) n h p = true ->
    exists (p' : ptr) (h' : gmap loc JSONValue),
      clone lt n p h = Ret (p', h') /\
      agree_on (dom h) h h' /\
      array_value (dom h' ∖ dom h) n h' p' = true /\
      same_text h' p' h p.
Proof.
  induction n as [|n IH]; intros h p Hwf; [discriminate |].
  destruct p as [l|]; [| discriminate].
  pose proof Hwf as Hwf'. simpl in Hwf'.
  apply andb_true_iff in Hwf' as [_ Hnode].
  assert (Hfresh : fresh (dom h) ∉ dom h) by apply is_fresh.
  destruct (h !! l) as [[| b | values | s | values]|] eqn:Hl; try discriminate.
  - exists (Some (fresh (dom h))), (<[fresh (dom h) := JSONNullType]> h).
    split; [simpl; now rewrite Hl |].
    exact (clone_leaf n h l JSONNullType Hl I).
  - exists (Some (fresh (dom h))), (<[fresh (dom h) := JSONBooleanType b]> h).
    split; [simpl; now rewrite Hl |].
    exact (clone_leaf n h l (JSONBooleanType b) Hl I).
  - rewrite forallb_forall in Hnode.
    destruct (clone_array_loop lt n IH h (fresh (dom h)) Hfresh values [] []
                (<[fresh (dom h) := JSONArray []]> h))
      as (g' & acc' & Hloop & Hagree & Hthis & Hinv).
    + intros l' Hl'. rewrite lookup_insert_ne; [reflexivity | set_solver].
    + apply lookup_insert_eq.
    + constructor.
    + apply Forall_forall. intros q Hq. apply Hnode. now apply list_elem_of_In.
    + simpl in Hinv. exists (Some (fresh (dom h))), g'.
      split; [simpl; rewrite Hl; simpl; now rewrite Hloop |].
      split; [exact Hagree |]. split.
      * simpl. rewrite bool_decide_eq_true_2.
        2:{ apply elem_of_difference. split; [| exact Hfresh].
            apply elem_of_dom. now rewrite Hthis. }
        rewrite Hthis. simpl. apply forallb_forall. intros q' Hq'%list_elem_of_In.
        apply list_elem_of_lookup_1 in Hq' as [i Hi].
        destruct (Forall2_lookup_l _ _ _ _ _ Hinv Hi) as (q & _ & Hq'wf & _).
        revert Hq'wf. apply array_value_mono. set_solver.
      * intros [|f]; simpl; [reflexivity |]. rewrite Hthis, Hl. simpl.
        erewrite for_each_Forall2 with (l2 := values); [reflexivity |].
        eapply Forall2_impl; [exact Hinv |]. intros q' q [_ Hq] out. simpl.
        now rewrite (Hq f).
  - exists (Some (fresh (dom h))), (<[fresh (dom h) := JSONString s]> h).
    split; [simpl; now rewrite Hl |].
    exact (clone_leaf n h l (JSONString s) Hl I).
Qed.

End clone_correct.

Lemma array_value_reachable (F : gset loc) (h : gmap loc JSONValue) (p : ptr) (l' : loc) :
  reachable h p l' ->
  forall n : nat, array_value F n h p = true -> l' ∈ F.
Proof.
  induction 1 as [l | l values q l' Hl Hq _ IH | l values pa l' Hl Hpa _ IH];
    intros [|n] Hwf; try discriminate; simpl in Hwf;
    apply andb_true_iff in Hwf as [HF Hnode].
  - now apply bool_decide_eq_true in HF.
  - rewrite Hl in Hnode. rewrite forallb_forall in Hnode.
    apply (IH n), Hnode. now apply list_elem_of_In.
  - rewrite Hl in Hnode. discriminate.
Qed.

(** C2, for the values the code can clone: cloning a well-formed value made
    of nulls, booleans, strings and arrays returns; the clone serializes to
    what the original serializes to; no object of the clone existed before
    the call, so that the two values share nothing; and overwriting any
    object of the clone leaves the text of the original as it was.  The
    comparison of keys, which only the copy of a [JSONObject] would use, is
    left open. *)
Theorem clone_deep_copy
  (lt : string -> string -> bool) (n : nat) (h : gmap loc JSONValue) (p : ptr) :
  array_value (dom h) n h p = true ->
  exists (p' : ptr) (h' : gmap loc JSONValue),
    clone lt n p h = Ret (p', h') /\
    (forall fuel : nat, to_string fuel h' p' = to_string fuel h p) /\
    (forall fuel : nat, to_string fuel h' p = to_string fuel h p) /\
    (forall l : loc, reachable h' p' l -> l ∉ dom h) /\
    (forall (l : loc) (v : JSONValue) (fuel : nat),
        reachable h' p' l ->
        to_string fuel (<[l := v]> h') p = to_string fuel h p).
Proof.
  intros Hwf.
  destruct (clone_spec lt n h p Hwf) as (p' & h' & Hclone & Hagree & Hwf' & Htext).
  exists p', h'. split; [exact Hclone |]. split; [exact Htext |].
  assert (Hnew : forall l : loc, reachable h' p' l -> l ∉ dom h).
  { intros l Hr. pose proof (array_value_reachable _ _ _ _ Hr n Hwf') as Hl.
    now apply elem_of_difference in Hl as [_ Hl]. }
  split; [| split; [exact Hnew |]].
  - intros fuel. now apply (array_value_frame (dom h) n h h' Hagree p Hwf).
  - intros l v fuel Hr.
    apply (array_value_frame (dom h) n h (<[l := v]> h')); [| exact Hwf].
    intros l0 Hl0. rewrite lookup_insert_ne; [now apply Hagree |].
    intros Heq. subst l0. now apply (Hnew l).
Qed.

Lemma clone_deep_copy_witness :
  array_value (dom nested_array_heap) 3 nested_array_heap (Some 5%positive) = true /\
  exists (p' : ptr) (h' : gmap loc JSONValue),
    clone String.ltb 3 (Some 5%positive) nested_array_heap = Ret (p', h') /\
    (forall fuel : nat,
        to_string fuel h' p' = to_string fuel nested_array_heap (Some 5%positive)) /\
    (forall fuel : nat,
        to_string fuel h' (Some 5%positive)
        = to_string fuel nested_array_heap (Some 5%positive)) /\
    (forall l : loc, reachable h' p' l -> l ∉ dom nested_array_heap) /\
    (forall (l : loc) (v : JSONValue) (fuel : nat),
        reachable h' p' l ->
        to_string fuel (<[l := v]> h') (Some 5%positive)
        = to_string fuel nested_array_heap (Some 5%positive)).
Proof.
  split; [vm_compute; reflexivity |].
  apply (clone_deep_copy String.ltb 3 nested_array_heap (Some 5%positive)).
  vm_compute. reflexivity.
Defined.

(** * Further properties of the code *)

(** ** [escape_str] and [JSONString::to_string] *)

Section escape_more.

Lemma append_cancel_r (a b t : string) : a +:+ t = b +:+ t -> a = b.
Proof.
  revert b. induction a as [|x a IH]; intros [|y b] H.
  - reflexivity.
  - apply (f_equal String.length) in H.
    rewrite append_empty_l, append_cons in H. simpl in H.
    rewrite length_append in H. lia.
  - apply (f_equal String.length) in H.
    rewrite append_empty_l, append_cons in H. simpl in H.
    rewrite length_append in H. lia.
  - rewrite !append_cons in H. injection H as -> H. f_equal. now apply IH.
Qed.

Lemma list_ascii_of_string_append (a b : string) :
  list_ascii_of_string (a +:+ b) = list_ascii_of_string a ++ list_ascii_of_string b.
Proof.
  induction a as [|x a IH]; [reflexivity |].
  rewrite append_cons. simpl. now rewrite IH.
Qed.

(** The text of one unit, read back. *)
Lemma unescape_head_escape_switch (c : ascii) (rest : string) :
  c <> NUL ->
  unescape_head (c_str (escape_switch c) +:+ rest) = Some (c, rest).
Proof.
  destruct c as [[] [] [] [] [] [] [] []]; intros H;
    try reflexivity; exfalso; apply H; reflexivity.
Qed.

Lemma escape_str_inj (s1 s2 : string) :
  ~ In NUL (list_ascii_of_string s1) ->
  ~ In NUL (list_ascii_of_string s2) ->
  escape_str s1 = escape_str s2 -> s1 = s2.
Proof.
  revert s2. induction s1 as [|c1 s1 IH]; intros [|c2 s2] H1 H2 Heq.
  - reflexivity.
  - rewrite escape_str_cons in Heq. apply (f_equal unescape_head) in Heq.
    rewrite unescape_head_escape_switch in Heq; [discriminate |].
    intros ->. apply H2. now left.
  - rewrite escape_str_cons in Heq. apply (f_equal unescape_head) in Heq.
    rewrite unescape_head_escape_switch in Heq; [discriminate |].
    intros ->. apply H1. now left.
  - rewrite !escape_str_cons in Heq. apply (f_equal unescape_head) in Heq.
    rewrite !unescape_head_escape_switch in Heq.
    + injection Heq as -> Heq. f_equal. apply IH; [| | exact Heq].
      * intros Hin. apply H1. now right.
      * intros Hin. apply H2. now right.
    + intros ->. apply H2. now left.
    + intros ->. apply H1. now left.
Qed.

Lemma escape_switch_length (c : ascii) :
  String.length (c_str (escape_switch c)) <= 2.
Proof. destruct c as [[] [] [] [] [] [] [] []]; simpl; lia. Qed.

Lemma escape_switch_no_control (c : ascii) :
  forallb (fun x => negb (raw_control x)) (list_ascii_of_string (c_str (escape_switch c)))
  = true.
Proof. destruct c as [[] [] [] [] [] [] [] []]; reflexivity. Qed.

End escape_more.

(** X1: on raw strings without a NUL, escaping loses nothing: two strings
    with the same escaped text, or with the same serialized text, are the
    same string. *)
Theorem JSONString_to_string_injective (s1 s2 : string) :
  ~ In NUL (list_ascii_of_string s1) ->
  ~ In NUL (list_ascii_of_string s2) ->
  (escape_str s1 = escape_str s2 -> s1 = s2) /\
  (JSONString_to_string s1 = JSONString_to_string s2 -> s1 = s2).
Proof.
  intros H1 H2. split; [now apply escape_str_inj |].
  rewrite !JSONString_to_string_quotes. intros Heq. injection Heq as Heq.
  apply append_cancel_r in Heq. now apply escape_str_inj.
Qed.

Lemma JSONString_to_string_injective_witness :
  JSONString_to_string "n" <> JSONString_to_string (String "010"%char EmptyString).
Proof.
  intros Heq.
  destruct (JSONString_to_string_injective "n" (String "010"%char EmptyString))
    as [_ Hinj].
  - simpl. intros [H | []]. discriminate H.
  - simpl. intros [H | []]. discriminate H.
  - specialize (Hinj Heq). discriminate Hinj.
Defined.

(** X2: the output of [escape_str] holds no NUL, backspace, form feed,
    newline, carriage return or tab: each of them is either rewritten or
    left out. *)
Theorem escape_str_no_raw_control (s : string) (c : ascii) :
  In c (list_ascii_of_string (escape_str s)) ->
  ~ In c ["000"; "008"; "012"; "010"; "013"; "009"]%char.
Proof.
  induction s as [|x s IH]; [intros [] |].
  rewrite escape_str_cons, list_ascii_of_string_append. intros Hin%in_app_or.
  destruct Hin as [Hin | Hin]; [| now apply IH].
  pose proof (escape_switch_no_control x) as Hok. rewrite forallb_forall in Hok.
  specialize (Hok c Hin). apply negb_true_iff in Hok. intros Hc.
  assert (Hraw : raw_control c = true).
  { unfold raw_control. apply existsb_exists. exists c. split; [exact Hc |].
    apply Ascii.eqb_refl. }
  congruence.
Qed.

Lemma escape_str_no_raw_control_witness :
  In "n"%char (list_ascii_of_string (escape_str (String "010"%char EmptyString))) /\
  ~ In "n"%char ["000"; "008"; "012"; "010"; "013"; "009"]%char.
Proof.
  assert (Hin : In "n"%char
                  (list_ascii_of_string (escape_str (String "010"%char EmptyString)))).
  { simpl. right. left. reflexivity. }
  split; [exact Hin |].
  exact (escape_str_no_raw_control (String "010"%char EmptyString) "n"%char Hin).
Defined.

(** X3: [escape_str] works unit by unit: the text of a concatenation is the
    concatenation of the texts, and a text is at most twice as long as the
    string it comes from. *)
Theorem escape_str_append_length (s1 s2 : string) :
  escape_str (s1 +:+ s2) = escape_str s1 +:+ escape_str s2 /\
  String.length (escape_str s1) <= 2 * String.length s1.
Proof.
  split; [apply escape_str_app |].
  induction s1 as [|c s1 IH]; [simpl; lia |].
  rewrite escape_str_cons, length_append. simpl String.length.
  pose proof (escape_switch_length c). lia.
Qed.

(** ** [to_string] on whole values *)

Section to_string_more.

Lemma for_each_Ret_inv {A S : Type} (body : S -> A -> outcome S) (l : list A) :
  forall s s' : S,
    for_each body s l = Ret s' ->
    forall x : A, x ∈ l -> exists s1 s2 : S, body s1 x = Ret s2.
Proof.
  induction l as [|y l IH]; intros s s' Hret x Hx; [now apply elem_of_nil in Hx |].
  simpl in Hret. destruct (body s y) as [s1 | | |] eqn:Hy; try discriminate.
  apply elem_of_cons in Hx as [-> | Hx]; [now exists s, s1 |].
  now apply (IH s1 s').
Qed.

Context (n : nat) (h : gmap loc JSONValue).

(** The loops of [to_string] over children each of which either returns or
    throws; every round makes [out] longer by two units at least. *)
Lemma to_string_loop_outcome {A : Type} (get : A -> ptr)
  (step : string -> A -> string -> string) (values : list A) :
  (forall out x s, String.length out + 2 <= String.length (step out x s)) ->
  Forall (fun x =>
            if has_empty_container n h (get x)
            then to_string n h (get x) = Throw std_out_of_range
            else exists s, to_string n h (get x) = Ret s) values ->
  forall out : string,
    if existsb (fun x => has_empty_container n h (get x)) values
    then for_each (fun out x => s ← to_string n h (get x); Ret (step out x s)) out values
         = Throw std_out_of_range
    else exists out',
        for_each (fun out x => s ← to_string n h (get x); Ret (step out x s)) out values
        = Ret out' /\
        String.length out + 2 * length values <= String.length out'.
Proof.
  intros Hstep. induction 1 as [|x values Hx _ IH]; intros out; simpl.
  - exists out. split; [reflexivity | lia].
  - destruct (has_empty_container n h (get x)); simpl.
    + now rewrite Hx.
    + destruct Hx as [s ->]. simpl. specialize (IH (step out x s)).
      destruct (existsb _ values); [exact IH |].
      destruct IH as (out' & Hout' & Hlen). exists out'. split; [exact Hout' |].
      specialize (Hstep out x s). lia.
Qed.

End to_string_more.

Lemma to_string_outcome (F : gset loc) (h : gmap loc JSONValue) (n : nat) :
  forall p : ptr,
    well_formed F n h p = true ->
    if has_empty_container n h p
    then to_string n h p = Throw std_out_of_range
    else exists s, to_string n h p = Ret s.
Proof.
  induction n as [|n IH]; intros p Hwf; [discriminate |].
  destruct p as [l|]; [| discriminate]. simpl in Hwf.
  apply andb_true_iff in Hwf as [_ Hnode]. simpl.
  destruct (h !! l) as [[| b | values | s | values]|]; try discriminate; simpl;
    try (eexists; reflexivity).
  - destruct values as [|q values]; [reflexivity |].
    assert (Hch : Forall (fun x =>
                     if has_empty_container n h x
                     then to_string n h x = Throw std_out_of_range
                     else exists s, to_string n h x = Ret s) (q :: values)).
    { apply Forall_forall. intros x Hx. apply IH.
      rewrite forallb_forall in Hnode. apply Hnode. now apply list_elem_of_In. }
    pose proof (to_string_loop_outcome n h (fun x => x)
                  (fun out _ s => (out +:+ s) +:+ ", ") (q :: values)) as Hloop.
    specialize (Hloop ltac:(intros; cbv beta; rewrite !length_append; simpl; lia) Hch "[").
    destruct (existsb _ (q :: values)); [now rewrite Hloop |].
    destruct Hloop as (out' & -> & Hlen). simpl.
    unfold erase_or_throw. rewrite erase_drop_last2 by (simpl in Hlen; lia).
    simpl. eexists. reflexivity.
  - apply andb_true_iff in Hnode as [_ Hnode].
    destruct values as [|pa values]; [reflexivity |].
    assert (Hch : Forall (fun x : string * ptr =>
                     if has_empty_container n h x.2
                     then to_string n h x.2 = Throw std_out_of_range
                     else exists s, to_string n h x.2 = Ret s) (pa :: values)).
    { apply Forall_forall. intros x Hx. apply IH.
      rewrite forallb_forall in Hnode. apply Hnode. now apply list_elem_of_In. }
    pose proof (to_string_loop_outcome n h (fun x : string * ptr => x.2)
                  (fun out x s => (out +:+ JSONString_to_string x.1) +:+ s)
                  (pa :: values)) as Hloop.
    specialize (Hloop ltac:(intros out x s; cbv beta; rewrite !length_append;
                            pose proof (JSONString_to_string_length x.1); lia)
                  Hch "{").
    destruct (existsb _ (pa :: values)); [now rewrite Hloop |].
    destruct Hloop as (out' & -> & Hlen). simpl.
    unfold erase_or_throw. rewrite erase_drop_last2 by (simpl in Hlen; lia).
    simpl. eexists. reflexivity.
Qed.

(** X4: on a well-formed value [to_string] never runs into undefined
    behaviour: it throws [std::out_of_range] when some array or object
    inside the value is empty, and it returns a text otherwise. *)
Theorem to_string_returns_or_throws
  (F : gset loc) (h : gmap loc JSONValue) (n : nat) (p : ptr) :
  well_formed F n h p = true ->
  if has_empty_container n h p
  then to_string n h p = Throw std_out_of_range
  else exists s, to_string n h p = Ret s.
Proof. apply to_string_outcome. Qed.

Lemma to_string_returns_or_throws_witness :
  (exists s, to_string 3 nested_heap (Some 4%positive) = Ret s) /\
  to_string 2 (<[2%positive := JSONArray [Some 1%positive]]>
                 (<[1%positive := JSONObject []]> ∅)) (Some 2%positive)
  = Throw std_out_of_range.
Proof.
  split.
  - exact (to_string_returns_or_throws (dom nested_heap) nested_heap 3
             (Some 4%positive) eq_refl).
  - exact (to_string_returns_or_throws {[1%positive; 2%positive]}
             (<[2%positive := JSONArray [Some 1%positive]]>
                (<[1%positive := JSONObject []]> ∅)) 2 (Some 2%positive) eq_refl).
Defined.

Lemma null_child_no_return (fuel : nat) (h : gmap loc JSONValue) (l : loc) (v : JSONValue) :
  h !! l = Some v ->
  nullptr ∈ children v ->
  (forall s, to_string fuel h (Some l) <> Ret s) /\
  (forall values : list ptr,
      v = JSONArray values ->
      forall (lt : string -> string -> bool) (r : ptr * gmap loc JSONValue),
        clone lt fuel (Some l) h <> Ret r).
Proof.
  intros Hl Hnull.
  assert (Hts : forall g, forall s, to_string (pred fuel) g nullptr <> Ret s).
  { intros g s. now destruct (pred fuel). }
  assert (Hcl : forall lt g, forall r, clone lt (pred fuel) nullptr g <> Ret r).
  { intros lt g r. now destruct (pred fuel). }
  destruct fuel as [|fuel]; [split; [| intros values _ lt r]; discriminate |].
  simpl pred in *.
  split.
  - intros s. simpl. rewrite Hl. simpl.
    destruct v as [| b | values | str | values]; simpl in Hnull;
      try (now apply elem_of_nil in Hnull).
    + destruct (for_each _ "[" values) as [out | | |] eqn:Hloop; try discriminate.
      destruct (for_each_Ret_inv _ _ _ _ Hloop nullptr Hnull) as (s1 & s2 & Hbody).
      simpl in Hbody.
      destruct (to_string fuel h nullptr) eqn:E; try discriminate.
      now apply Hts in E.
    + apply list_elem_of_fmap in Hnull as (pa & Hpa & Hin).
      destruct (for_each _ "{" values) as [out | | |] eqn:Hloop; try discriminate.
      destruct (for_each_Ret_inv _ _ _ _ Hloop pa Hin) as (s1 & s2 & Hbody).
      simpl in Hbody. rewrite <- Hpa in Hbody.
      destruct (to_string fuel h nullptr) eqn:E; try discriminate.
      now apply Hts in E.
  - intros values -> lt r. simpl in Hnull. simpl. rewrite Hl. simpl.
    destruct (for_each _ _ values) as [out | | |] eqn:Hloop; try discriminate.
    destruct (for_each_Ret_inv _ _ _ _ Hloop nullptr Hnull) as (s1 & s2 & Hbody).
    simpl in Hbody.
    destruct (clone lt fuel nullptr s1) eqn:E; try discriminate.
    now apply Hcl in E.
Qed.

(** X5: no call of [to_string] on an array or an object that holds a null
    pointer returns a text, and no call of [clone] on an array that holds a
    null pointer returns a copy, whatever else the value holds. *)
Theorem null_child_never_returns
  (fuel : nat) (h : gmap loc JSONValue) (l : loc) (v : JSONValue) :
  h !! l = Some v ->
  nullptr ∈ children v ->
  (forall s, to_string fuel h (Some l) <> Ret s) /\
  (forall values : list ptr,
      v = JSONArray values ->
      forall (lt : string -> string -> bool) (r : ptr * gmap loc JSONValue),
        clone lt fuel (Some l) h <> Ret r).
Proof. apply null_child_no_return. Qed.

Lemma null_child_never_returns_witness :
  let h : gmap loc JSONValue := {[1%positive := JSONArray [nullptr]]} in
  (forall s, to_string 2 h (Some 1%positive) <> Ret s) /\
  (forall values : list ptr,
      JSONArray [nullptr] = JSONArray values ->
      forall (lt : string -> string -> bool) (r : ptr * gmap loc JSONValue),
        clone lt 2 (Some 1%positive) h <> Ret r).
Proof.
  apply (null_child_never_returns 2 {[1%positive := JSONArray [nullptr]]}
           1%positive (JSONArray [nullptr])).
  - reflexivity.
  - simpl. left.
Defined.

(** ** [create] *)

(** X6: [create] on an object of any class returns a new object of the same
    class in its default state, whatever the receiver holds; no existing
    value changes its text.  The new object serializes to [null], [false]
    or an empty pair of quotes, and for an array or an object [to_string]
    on it throws. *)
Theorem create_default (h : gmap loc JSONValue) (l : loc) (v : JSONValue) :
  h !! l = Some v ->
  exists this : loc,
    create (Some l) h = Ret (Some this, <[this := default_instance v]> h) /\
    (this ∉ dom h) /\
    (forall fuel : nat,
        to_string (S fuel) (<[this := default_instance v]> h) (Some this)
        = (match v with
           | JSONNullType => Ret "null"
           | JSONBooleanType _ => Ret "false"
           | JSONString _ => Ret (JSONString_to_string "")
           | JSONArray _ | JSONObject _ => Throw std_out_of_range
           end)) /\
    (forall (n fuel : nat) (p : ptr),
        well_formed (dom h) n h p = true ->
        to_string fuel (<[this := default_instance v]> h) p = to_string fuel h p).
Proof.
  intros Hl. exists (fresh (dom h)).
  assert (Hfresh : fresh (dom h) ∉ dom h) by apply is_fresh.
  split; [| split; [exact Hfresh | split]].
  - unfold create. simpl. now rewrite Hl.
  - intros fuel. simpl. rewrite lookup_insert_eq. now destruct v.
  - intros n fuel p Hwf.
    apply (well_formed_frame (dom h) n h); [| exact Hwf].
    intros l' Hl'. rewrite lookup_insert_ne; [reflexivity |].
    intros Heq. subst l'. now apply Hfresh.
Qed.

Lemma create_default_witness :
  exists this : loc,
    create (Some 4%positive) array3_heap
    = Ret (Some this, <[this := JSONArray []]> array3_heap) /\
    (this ∉ dom array3_heap) /\
    (forall fuel : nat,
        to_string (S fuel) (<[this := JSONArray []]> array3_heap) (Some this)
        = Throw std_out_of_range) /\
    (forall (n fuel : nat) (p : ptr),
        well_formed (dom array3_heap) n array3_heap p = true ->
        to_string fuel (<[this := JSONArray []]> array3_heap) p
        = to_string fuel array3_heap p).
Proof.
  exact (create_default array3_heap 4%positive
           (JSONArray [Some 1%positive; Some 2%positive; Some 3%positive]) eq_refl).
Defined.

(** ** Destruction *)

Section ownership.

#[local] Set Warnings "-clear-no-such-hyp".

Lemma lookup_free (D : gset loc) (h : gmap loc JSONValue) (l : loc) :
  free D h !! l = if decide (l ∈ D) then None else h !! l.
Proof.
  unfold free. destruct (decide (l ∈ D)) as [Hin | Hnin].
  - apply map_lookup_filter_None. right. intros x _ Hx. now apply Hx.
  - destruct (h !! l) as [x|] eqn:E.
    + now apply map_lookup_filter_Some.
    + apply map_lookup_filter_None. now left.
Qed.

Lemma free_empty (h : gmap loc JSONValue) : free ∅ h = h.
Proof.
  apply map_eq. intros l. rewrite lookup_free.
  destruct (decide (l ∈ (∅ : gset loc))) as [Hin | _]; [set_solver | reflexivity].
Qed.

Lemma free_union (D1 D2 : gset loc) (h : gmap loc JSONValue) :
  free D2 (free D1 h) = free (D1 ∪ D2) h.
Proof.
  apply map_eq. intros l. rewrite !lookup_free.
  repeat case_decide; try reflexivity; set_solver.
Qed.

Lemma delete_free (l : loc) (D : gset loc) (h : gmap loc JSONValue) :
  delete l (free D h) = free ({[l]} ∪ D) h.
Proof.
  apply map_eq. intros l'. rewrite lookup_delete, !lookup_free.
  repeat case_decide; try reflexivity; set_solver.
Qed.

Lemma agree_on_free (D D' : gset loc) (h : gmap loc JSONValue) :
  D ## D' -> agree_on D h (free D' h).
Proof.
  intros Hdisj l Hl. rewrite lookup_free.
  case_decide; [set_solver | reflexivity].
Qed.

Lemma agree_on_subseteq (D D' : gset loc) (h g : gmap loc JSONValue) :
  D ⊆ D' -> agree_on D' h g -> agree_on D h g.
Proof. intros Hsub Hagree l Hl. apply Hagree. set_solver. Qed.

Lemma footprints_frame (f f' : ptr -> option (gset loc)) (h g : gmap loc JSONValue) :
  (forall p D, f p = Some D -> agree_on D h g -> f' p = Some D) ->
  forall (ps : list ptr) (D : gset loc),
    footprints f ps = Some D -> agree_on D h g -> footprints f' ps = Some D.
Proof.
  intros Hf. induction ps as [|p ps IH]; intros D; simpl; [auto |].
  destruct (f p) as [D1|] eqn:Hp; [| discriminate]. simpl.
  destruct (footprints f ps) as [D2|] eqn:Hps; [| discriminate]. simpl.
  case_decide; [| discriminate]. intros [= <-] Hagree.
  rewrite (Hf p D1 Hp) by (eapply agree_on_subseteq; [| exact Hagree]; set_solver).
  simpl. rewrite (IH D2 eq_refl) by (eapply agree_on_subseteq; [| exact Hagree]; set_solver).
  simpl. now rewrite decide_True.
Qed.

Lemma footprint_frame (h g : gmap loc JSONValue) (n : nat) :
  forall (p : ptr) (D : gset loc),
    footprint n h p = Some D -> agree_on D h g -> footprint n g p = Some D.
Proof.
  induction n as [|n IH]; intros p D; [discriminate |].
  destruct p as [l|]; [| auto]. simpl.
  destruct (h !! l) as [v|] eqn:Hl; [| discriminate]. simpl.
  destruct (footprints (footprint n h) (children v)) as [D'|] eqn:Hch; [| discriminate].
  simpl. case_decide; [discriminate |]. intros [= <-] Hagree.
  rewrite (Hagree l) by set_solver. rewrite Hl. simpl.
  rewrite (footprints_frame _ (footprint n g) h g IH _ _ Hch)
    by (eapply agree_on_subseteq; [| exact Hagree]; set_solver).
  simpl. now rewrite decide_False.
Qed.


Lemma for_each_fmap {A B S : Type} (get : A -> B) (body : S -> B -> outcome S)
  (l : list A) (s : S) :
  for_each (fun s x => body s (get x)) s l = for_each body s (get <$> l).
Proof.
  revert s. induction l as [|x l IH]; intros s; simpl; [reflexivity |].
  destruct (body s (get x)); simpl; auto.
Qed.

(** The destructor loop over the pointers an object holds. *)
Lemma delete_value_children (fuel : nat) (v : JSONValue) (h : gmap loc JSONValue) :
  match v with
  | JSONArray values => for_each (fun h ptr => delete_value fuel ptr h) h values
  | JSONObject values => for_each (fun h pa => delete_value fuel pa.2 h) h values
  | _ => Ret h
  end
  = for_each (fun h ptr => delete_value fuel ptr h) h (children v).
Proof.
  destruct v as [| b | values | s | values]; try reflexivity.
  simpl children.
  apply (for_each_fmap snd (fun h ptr => delete_value fuel ptr h)).
Qed.

Lemma delete_value_unfold (fuel : nat) (l : loc) (v : JSONValue) (h : gmap loc JSONValue) :
  h !! l = Some v ->
  delete_value (S fuel) (Some l) h
  = h' ← for_each (fun h ptr => delete_value fuel ptr h) h (children v); release l h'.
Proof. intros Hl. simpl. rewrite Hl. simpl. now rewrite delete_value_children. Qed.

Lemma delete_loop_footprints (n : nat) :
  (forall h p D, footprint n h p = Some D -> delete_value n p h = Ret (free D h)) ->
  forall (ps : list ptr) (h : gmap loc JSONValue) (D : gset loc),
    footprints (footprint n h) ps = Some D ->
    for_each (fun h ptr => delete_value n ptr h) h ps = Ret (free D h).
Proof.
  intros IH. induction ps as [|p ps IHps]; intros h D; simpl.
  - intros [= <-]. now rewrite free_empty.
  - destruct (footprint n h p) as [D1|] eqn:Hp; [| discriminate]. simpl.
    destruct (footprints (footprint n h) ps) as [D2|] eqn:Hps; [| discriminate]. simpl.
    case_decide; [| discriminate]. intros [= <-].
    rewrite (IH h p D1 Hp). simpl.
    rewrite (IHps (free D1 h) D2).
    + now rewrite free_union.
    + apply (footprints_frame (footprint n h) _ h (free D1 h)); [| exact Hps |].
      * intros q Dq. apply footprint_frame.
      * apply agree_on_free. set_solver.
Qed.

Lemma delete_value_footprint (n : nat) :
  forall (h : gmap loc JSONValue) (p : ptr) (D : gset loc),
    footprint n h p = Some D -> delete_value n p h = Ret (free D h).
Proof.
  induction n as [|n IH]; intros h p D; [discriminate |].
  destruct p as [l|]; [| intros [= <-]; simpl; now rewrite free_empty].
  intros Hfoot. pose proof Hfoot as Hfoot'. simpl in Hfoot'.
  destruct (h !! l) as [v|] eqn:Hl; [| discriminate]. simpl in Hfoot'.
  destruct (footprints (footprint n h) (children v)) as [D'|] eqn:Hch; [| discriminate].
  simpl in Hfoot'. case_decide; [discriminate |]. injection Hfoot' as <-.
  rewrite (delete_value_unfold n l v h Hl).
  rewrite (delete_loop_footprints n IH _ _ _ Hch). simpl.
  unfold release. rewrite lookup_free, decide_False, Hl by assumption.
  now rewrite delete_free.
Qed.

End ownership.

(** X7: destroying a value no object of which is referred to twice returns
    and releases exactly the objects of the value, each once; every other
    object stays as it was.  Null pointers in it are skipped. *)
Theorem delete_value_releases_tree
  (n : nat) (h : gmap loc JSONValue) (p : ptr) (D : gset loc) :
  footprint n h p = Some D ->
  delete_value n p h = Ret (free D h) /\
  forall l : loc, free D h !! l = if decide (l ∈ D) then None else h !! l.
Proof.
  intros Hfoot. split; [now apply delete_value_footprint |].
  intros l. apply lookup_free.
Qed.

Lemma delete_value_releases_tree_witness :
  delete_value 3 (Some 4%positive) nested_heap = Ret (free (dom nested_heap) nested_heap) /\
  forall l : loc,
    free (dom nested_heap) nested_heap !! l
    = if decide (l ∈ dom nested_heap) then None else nested_heap !! l.
Proof.
  apply (delete_value_releases_tree 3 nested_heap (Some 4%positive) (dom nested_heap)).
  vm_compute. reflexivity.
Defined.

Section double_delete.

#[local] Set Warnings "-clear-no-such-hyp".





End double_delete.



(** ** Cloning and destruction together *)

Section clone_footprint.

#[local] Set Warnings "-clear-no-such-hyp".

Context (lt : string -> string -> bool) (n : nat).
Context (IHfoot : forall (h : gmap loc JSONValue) (p p' : ptr) (h' : gmap loc JSONValue),
  array_value (dom h) n h p = true ->
  clone lt n p h = Ret (p', h') ->
  footprint n h' p' = Some (dom h' ∖ dom h)).
Context (h : gmap loc JSONValue) (this : loc) (Hthis : this ∉ dom h).



End clone_footprint.

Section clone_delete.

#[local] Set Warnings "-clear-no-such-hyp".



End clone_delete.



(** ** Reads and writes through [operator[]] *)

(** X10: a store through [a[i]] below the size returns; afterwards [a[i]]
    reads the stored pointer, every other index reads what it read before,
    the size is the same, and no other object of the store has changed: the
    element that was in the slot is not released.  From the size on the
    store is undefined behaviour. *)
Theorem JSONArray_store_read
  (this : loc) (index : N) (p : ptr) (h : gmap loc JSONValue) (values : list ptr) :
  h !! this = Some (JSONArray values) ->
  ((index < N.of_nat (length values))%N ->
   exists h' : gmap loc JSONValue,
     JSONArray_store this index p h = Ret h' /\
     JSONArray_subscript this index h' = Ret p /\
     (forall j : N, j <> index ->
                    JSONArray_subscript this j h' = JSONArray_subscript this j h) /\
     JSONArray_size this h' = JSONArray_size this h /\
     (forall l : loc, l <> this -> h' !! l = h !! l)) /\
  ((N.of_nat (length values) <= index)%N ->
   JSONArray_store this index p h = Undefined).
Proof.
  intros Hthis. unfold JSONArray_store, JSONArray_subscript, JSONArray_size,
    vector_subscript. simpl. rewrite Hthis. simpl. split; intros Hi.
  - destruct (lookup_lt_is_Some_2 values (N.to_nat index)) as [old Hold]; [lia |].
    rewrite Hold. eexists. split; [reflexivity |].
    rewrite lookup_insert_eq. simpl.
    rewrite list_lookup_insert_eq by lia. split; [reflexivity |]. split; [| split].
    + intros j Hj. rewrite list_lookup_insert_ne; [reflexivity |]. lia.
    + now rewrite length_insert.
    + intros l Hl. now rewrite lookup_insert_ne.
  - now rewrite (proj2 (lookup_ge_None values (N.to_nat index))) by lia.
Qed.

Lemma JSONArray_store_read_witness :
  (exists h' : gmap loc JSONValue,
      JSONArray_store 4%positive 1 nullptr array3_heap = Ret h' /\
      JSONArray_subscript 4%positive 1 h' = Ret nullptr /\
      h' !! 2%positive = Some (JSONBooleanType true)) /\
  JSONArray_store 4%positive 3 nullptr array3_heap = Undefined.
Proof.
  destruct (JSONArray_store_read 4%positive 1 nullptr array3_heap
              [Some 1%positive; Some 2%positive; Some 3%positive] eq_refl)
    as [Hin _].
  destruct (JSONArray_store_read 4%positive 3 nullptr array3_heap
              [Some 1%positive; Some 2%positive; Some 3%positive] eq_refl)
    as [_ Hout].
  split.
  - destruct Hin as (h' & Hstore & Hread & _ & _ & Hrest); [reflexivity |].
    exists h'. split; [exact Hstore |]. split; [exact Hread |].
    now rewrite Hrest.
  - apply Hout. simpl. lia.
Defined.

